(** * graph_coloring.py: adjacency of map regions and greedy colouring

    A shallow embedding of [generate_intersections] and [greedy_coloring]
    from [src/graph_coloring.py], and the properties of the two functions.

    Modelling choices, all read off the source:
    - [reader.records()] is re-evaluated by each loop and is taken to yield
      the same finite sequence of records every time: a [list record];
    - [city.geometry.intersects] belongs to the geometry engine and is a
      section variable [intersects];
    - the dictionary [intersections] is iterated ([sorted] walks its keys in
      insertion order), so it is an association list in insertion order;
      the returned [OrderedDict] is the association list of its items;
    - [colormap] is only read and written by key: a [gmap string Color];
    - [random.shuffle] reorders the palette in place and advances the
      global random state: a section variable [random_shuffle] threading an
      abstract [RandomState], with the single assumption that its output is
      a permutation of its input;
    - [raise Exception(msg)] is the [Raise] branch of a result type;
    - [verbose] only prints, and its output is not modelled. *)

From stdpp Require Import base list strings gmap sorting.

(** ** Python's [sorted(xs, key=..., reverse=True)]

    [sorted] is stable, and with [reverse=True] it still keeps elements of
    equal key in their original order.  The result of a stable sort is
    determined by the input, so an insertion sort stands for it: a new
    element goes after the elements of strictly larger key and before the
    ones of smaller or equal key that followed it in the input. *)

Section Sorted.
Context {A : Type} (key : A → nat).

Fixpoint insert_reverse (x : A) (l : list A) : list A :=
  match l with
  | [] => [x]
  | y :: l' =>
      if decide (key x < key y) then y :: insert_reverse x l'
      else x :: y :: l'
  end.

Definition sorted_reverse (l : list A) : list A :=
  foldr insert_reverse [] l.
End Sorted.

(** ** generate_intersections *)

Section GenerateIntersections.
Context {Geometry : Type}.
Variable intersects : Geometry → Geometry → bool.

(** A record of the shapefile reader: [attributes['name']] and
    [geometry]. *)
Record record : Type := Record_ { name : string; geometry : Geometry }.

(** The dictionary [intersections], in insertion order. *)
Definition dict : Type := list (string * list string).

(** [k in d] *)
Definition dict_contains (d : dict) (k : string) : bool :=
  bool_decide (k ∈ d.*1).

(** [d[k]]; the source only subscripts with keys that are present. *)
Definition dict_get (d : dict) (k : string) : list string :=
  from_option (λ e, e.2.2) [] (list_find (λ e, e.1 = k) d).

(** One iteration of the loop [for city2 in reader.records()]; the state
    is the list [intersections[name1]]. *)
Definition city2_step (city1 : record) (neighbors : list string)
    (city2 : record) : list string :=
  let name1 := name city1 in
  let name2 := name city2 in
  if bool_decide (name2 = "") || bool_decide (name1 = name2)
     || bool_decide (name2 ∈ neighbors)
  then neighbors
  else if intersects (geometry city1) (geometry city2)
       then neighbors ++ [name2]
       else neighbors.

(** One iteration of the loop [for city1 in reader.records()]. *)
Definition city1_step (records : list record) (intersections : dict)
    (city1 : record) : dict :=
  let name1 := name city1 in
  if bool_decide (name1 = "") || dict_contains intersections name1
  then intersections
  else intersections ++ [(name1, foldl (city2_step city1) [] records)].

(** The dictionary [intersections] when the outer loop ends. *)
Definition intersections_of (records : list record) : dict :=
  foldl (city1_step records) [] records.

Definition generate_intersections (records : list record) : dict :=
  let intersections := intersections_of records in
  (λ name, (name, dict_get intersections name)) <$>
    sorted_reverse (λ k, length (dict_get intersections k))
                   intersections.*1.
End GenerateIntersections.

Arguments Record_ {Geometry} name geometry.
Arguments name {Geometry} _.
Arguments geometry {Geometry} _.

(** ** greedy_coloring *)

(** What a call produces: the returned value, or the exception raised by
    [raise Exception(msg)], which carries the message it was built with. *)
Inductive result (A : Type) : Type :=
  | Return (a : A)
  | Raise (msg : string).
Arguments Return {A} a.
Arguments Raise {A} msg.

Definition bind {A B : Type} (r : result A) (k : A → result B) : result B :=
  match r with
  | Return a => k a
  | Raise msg => Raise msg
  end.

Section GreedyColoring.
Context {Color : Type} `{!EqDecision Color}.
Context {RandomState : Type}.
Variable random_shuffle :
  RandomState → list Color → RandomState * list Color.

(** What the outer loop carries from one city to the next: the global
    random state, the palette [colors] (reordered in place by every
    shuffle) and the dictionary [colormap]. *)
Record state : Type := State {
  random_state : RandomState;
  colors_of : list Color;
  colormap_of : gmap string Color
}.

(** The loop [for neighbor in neighbors]: [true] when it leaves through
    [break], [false] when it runs to its end (and the [else] clause
    is taken). *)
Fixpoint neighbor_loop (colormap : gmap string Color) (color : Color)
    (neighbors : list string) : bool :=
  match neighbors with
  | [] => false
  | neighbor :: rest =>
      if bool_decide (is_Some (colormap !! neighbor))
         && bool_decide (colormap !! neighbor = Some color)
      then true
      else neighbor_loop colormap color rest
  end.

(** The loop [for color in colors]: the first colour whose neighbour loop
    does not break is stored under [city] and ends the loop. *)
Fixpoint color_loop (colormap : gmap string Color) (city : string)
    (neighbors : list string) (colors : list Color)
    : gmap string Color :=
  match colors with
  | [] => colormap
  | color :: rest =>
      if neighbor_loop colormap color neighbors
      then color_loop colormap city neighbors rest
      else <[city := color]> colormap
  end.

(** The body of [for city, neighbors in neighbors_map.items()]. *)
Definition city_step (st : state) (item : string * list string)
    : result state :=
  let '(city, neighbors) := item in
  let '(rs, colors) := random_shuffle (random_state st) (colors_of st) in
  let colormap := color_loop (colormap_of st) city neighbors colors in
  if bool_decide (colormap !! city = None)
  then Raise ("Could not find color for " +:+ city)
  else Return (State rs colors colormap).

Fixpoint city_loop (items : list (string * list string)) (st : state)
    : result state :=
  match items with
  | [] => Return st
  | item :: rest => bind (city_step st item) (city_loop rest)
  end.

Definition greedy_coloring (rs : RandomState)
    (neighbors_map : list (string * list string)) (colors : list Color)
    : result (gmap string Color) :=
  bind (city_loop neighbors_map (State rs colors ∅))
       (λ st, Return (colormap_of st)).
End GreedyColoring.

Arguments State {Color RandomState} _ _ _.
Arguments random_state {Color RandomState} _.
Arguments colors_of {Color RandomState} _.
Arguments colormap_of {Color RandomState} _.

(** ** Notions used to state the properties *)

(** The position of the first record called [n]. *)
Definition first_index {Geometry : Type} (records : list (@record Geometry))
    (n : string) : option nat :=
  fst <$> list_find (λ r, name r = n) records.

(** The first record called [n]. *)
Definition first_record {Geometry : Type} (records : list (@record Geometry))
    (n : string) : option (@record Geometry) :=
  snd <$> list_find (λ r, name r = n) records.

(** What it takes for the record [city2] to put the name [n] in the list
    of [city1]: the guards of the inner loop and the geometry test. *)
Definition adjoins {Geometry : Type} (intersects : Geometry → Geometry → bool)
    (city1 city2 : @record Geometry) (n : string) : Prop :=
  n ≠ "" ∧ n ≠ name city1 ∧ name city2 = n
  ∧ intersects (geometry city1) (geometry city2) = true.

(** The records that start a region: those with a non-empty name that no
    earlier record carries.  [seen] lists the names met so far. *)
Fixpoint retained_from {Geometry : Type} (seen : list string)
    (records : list (@record Geometry)) : list (@record Geometry) :=
  match records with
  | [] => []
  | r :: rest =>
      if bool_decide (name r = "") || bool_decide (name r ∈ seen)
      then retained_from seen rest
      else r :: retained_from (name r :: seen) rest
  end.

Definition retained {Geometry : Type} (records : list (@record Geometry))
    : list (@record Geometry) :=
  retained_from [] records.

(** Records after the first of their name play no part: the result is
    the one computed from the retained records alone. *)
Definition ignores_later_duplicates {Geometry : Type}
    (intersects : Geometry → Geometry → bool)
    (records : list (@record Geometry)) : Prop :=
  generate_intersections intersects records
  = generate_intersections intersects (retained records).

(** The largest length of a neighbour list of the model. *)
Definition max_neighbors (neighbors_map : list (string * list string)) : nat :=
  max_list ((λ item, length item.2) <$> neighbors_map).

(** ** Concrete inputs *)

Module Sample.
(** Geometries are points of a line; two of them intersect when they
    coincide or are the two ends [0] and [2]. *)
Definition touches (a b : nat) : bool :=
  bool_decide (a = b) || bool_decide (a + b = 2).

(** Two records are called [B]; only the second one touches [A]. *)
Definition twice_B : list (@record nat) :=
  [Record_ "A" 0; Record_ "B" 1; Record_ "B" 2].

(** A record without a name lies on top of [A]. *)
Definition unnamed : list (@record nat) :=
  [Record_ "A" 0; Record_ "" 0; Record_ "C" 2; Record_ "D" 5].

(** A shuffle that reverses the palette and counts its calls. *)
Definition reverse_shuffle (rs : nat) (colors : list string)
    : nat * list string :=
  (S rs, reverse colors).

Definition triangle : list (string * list string) :=
  [("X", ["Y"; "Z"]); ("Y", ["X"; "Z"]); ("Z", ["X"; "Y"])].

Definition three_colors : list string := ["red"; "green"; "blue"].
Definition two_colors : list string := ["red"; "green"].

(** What the three colours and the reversing shuffle give the triangle. *)
Definition triangle_colormap : gmap string string :=
  <["Z" := "green"]> (<["Y" := "red"]> (<["X" := "blue"]> ∅)).
End Sample.

(** ** generate_intersections with its output

    The same loops, now with what [verbose] makes them print: the lines
    written to the standard output are threaded through both loops.  A line
    is written just before a name is appended. *)

Section GenerateIntersectionsOutput.
Context {Geometry : Type}.
Variable intersects : Geometry → Geometry → bool.
Variable verbose : bool.

(** One iteration of the inner loop; the state is [intersections[name1]]
    and the lines printed so far. *)
Definition city2_step_output (city1 : @record Geometry)
    (st : list string * list string) (city2 : @record Geometry)
    : list string * list string :=
  let '(neighbors, stdout) := st in
  let name1 := name city1 in
  let name2 := name city2 in
  if bool_decide (name2 = "") || bool_decide (name1 = name2)
     || bool_decide (name2 ∈ neighbors)
  then (neighbors, stdout)
  else if intersects (geometry city1) (geometry city2)
       then (neighbors ++ [name2],
             if verbose
             then stdout ++ [name1 +:+ " intersects " +:+ name2]
             else stdout)
       else (neighbors, stdout).

(** One iteration of the outer loop. *)
Definition city1_step_output (records : list (@record Geometry))
    (st : dict * list string) (city1 : @record Geometry)
    : dict * list string :=
  let '(intersections, stdout) := st in
  let name1 := name city1 in
  if bool_decide (name1 = "") || dict_contains intersections name1
  then (intersections, stdout)
  else
    let '(neighbors, stdout') :=
      foldl (city2_step_output city1) ([], stdout) records in
    (intersections ++ [(name1, neighbors)], stdout').

(** The returned mapping and the lines printed. *)
Definition generate_intersections_output (records : list (@record Geometry))
    : dict * list string :=
  let '(intersections, stdout) :=
    foldl (city1_step_output records) ([], []) records in
  ((λ name, (name, dict_get intersections name)) <$>
     sorted_reverse (λ k, length (dict_get intersections k))
                    intersections.*1,
   stdout).
End GenerateIntersectionsOutput.

(** ** More notions used to state properties *)

(** The test that lets [city2] into the list of [city1], when its name is
    new to the list: another name, and a geometry that intersects. *)
Definition passes {Geometry : Type} (intersects : Geometry → Geometry → bool)
    (city1 city2 : @record Geometry) : Prop :=
  name city2 ≠ name city1
  ∧ intersects (geometry city1) (geometry city2) = true.

Global Instance passes_dec {Geometry : Type}
    (intersects : Geometry → Geometry → bool) (city1 city2 : @record Geometry)
    : Decision (passes intersects city1 city2).
Proof. unfold passes. apply _. Defined.

(** The neighbour list of [city1] in closed form: of the records with
    another name that intersect [city1], the names of those retained. *)
Definition neighbors_of {Geometry : Type}
    (intersects : Geometry → Geometry → bool)
    (records : list (@record Geometry)) (city1 : @record Geometry)
    : list string :=
  name <$> retained (filter (passes intersects city1) records).

(** The lines [verbose] prints for one item of the dictionary. *)
Definition lines_of (item : string * list string) : list string :=
  (λ name2, item.1 +:+ " intersects " +:+ name2) <$> item.2.

(** A non-empty name belongs to one record only. *)
Definition names_unique {Geometry : Type} (records : list (@record Geometry))
    : Prop :=
  ∀ c c', c ∈ records → c' ∈ records →
          name c ≠ "" → name c = name c' → c = c'.

(** The model with every neighbour list cut down to the regions that come
    earlier in the model; [earlier] lists the keys met so far. *)
Fixpoint earlier_only (earlier : list string)
    (neighbors_map : list (string * list string))
    : list (string * list string) :=
  match neighbors_map with
  | [] => []
  | (city, neighbors) :: rest =>
      (city, filter (λ n, n ∈ earlier) neighbors)
        :: earlier_only (city :: earlier) rest
  end.

Module Sample2.
(** Three points in a row, the middle one touching both ends. *)
Definition near (a b : nat) : bool :=
  bool_decide (a = b) || bool_decide (a = S b) || bool_decide (b = S a).

Definition row : list (@record nat) :=
  [Record_ "L" 0; Record_ "M" 1; Record_ "R" 2].

(** A chain in which every region lists one earlier region at most. *)
Definition chain : list (string * list string) :=
  [("M", ["L"; "R"]); ("L", ["M"]); ("R", ["M"])].

(** What the three colours and the reversing shuffle give the chain. *)
Definition chain_colormap : gmap string string :=
  <["R" := "green"]> (<["L" := "red"]> (<["M" := "blue"]> ∅)).
End Sample2.

(** * Facts about [sorted_reverse] *)

Section SortedFacts.
Context {A : Type}.
Implicit Types (key : A → nat) (l : list A).

Lemma sorted_reverse_cons key x l :
  sorted_reverse key (x :: l) = insert_reverse key x (sorted_reverse key l).
Proof. reflexivity. Qed.

Lemma insert_reverse_Permutation key x l : insert_reverse key x l ≡ₚ x :: l.
Proof.
  induction l as [|y l IH]; simpl; [done|].
  case_decide; [|done]. rewrite IH. apply Permutation_swap.
Qed.

Lemma sorted_reverse_Permutation key l : sorted_reverse key l ≡ₚ l.
Proof.
  induction l as [|x l IH]; [done|].
  by rewrite sorted_reverse_cons, insert_reverse_Permutation, IH.
Qed.

Lemma insert_reverse_sorted key x l :
  StronglySorted (λ a b, key b ≤ key a) l →
  StronglySorted (λ a b, key b ≤ key a) (insert_reverse key x l).
Proof.
  induction 1 as [|y l Hl IH Hy]; simpl.
  { repeat constructor. }
  case_decide as Hlt.
  - constructor; [done|].
    rewrite insert_reverse_Permutation. constructor; [lia|done].
  - constructor; [by constructor|].
    constructor; [lia|]. eapply Forall_impl; [exact Hy|]. simpl. lia.
Qed.

Lemma sorted_reverse_sorted key l :
  StronglySorted (λ a b, key b ≤ key a) (sorted_reverse key l).
Proof.
  induction l as [|x l IH]; [constructor|].
  rewrite sorted_reverse_cons. by apply insert_reverse_sorted.
Qed.

(** Stability: the elements of any one key keep their input order. *)
Lemma insert_reverse_filter key k x l :
  filter (λ y, key y = k) (insert_reverse key x l)
  = filter (λ y, key y = k) (x :: l).
Proof.
  induction l as [|y l IH]; simpl; [done|].
  case_decide as Hlt; [|done].
  rewrite (filter_cons _ y), IH, !filter_cons.
  repeat case_decide; try done; lia.
Qed.

Lemma sorted_reverse_filter key k l :
  filter (λ y, key y = k) (sorted_reverse key l)
  = filter (λ y, key y = k) l.
Proof.
  induction l as [|x l IH]; [done|].
  rewrite sorted_reverse_cons, insert_reverse_filter, !filter_cons.
  by rewrite IH.
Qed.

Lemma filter_sublist_mono (P : A → Prop) `{!∀ x, Decision (P x)} l1 l2 :
  l1 `sublist_of` l2 → filter P l1 `sublist_of` filter P l2.
Proof.
  induction 1 as [|x l1 l2 _ IH|x l1 l2 _ IH]; [done|..];
    rewrite ?filter_cons; repeat case_decide;
    auto using sublist_skip, sublist_cons.
Qed.

Lemma sorted_reverse_stable key a b l :
  [a; b] `sublist_of` sorted_reverse key l → key a = key b →
  [a; b] `sublist_of` l.
Proof.
  intros Hsub Hab.
  apply (filter_sublist_mono (λ y, key y = key a)) in Hsub.
  rewrite sorted_reverse_filter in Hsub.
  rewrite !filter_cons_True, filter_nil in Hsub by done.
  etrans; [exact Hsub|]. apply sublist_filter.
Qed.

Lemma insert_reverse_ext key1 key2 x l :
  key1 x = key2 x → (∀ y, y ∈ l → key1 y = key2 y) →
  insert_reverse key1 x l = insert_reverse key2 x l.
Proof.
  intros Hx. induction l as [|y l IH]; intros Hl; simpl; [done|].
  rewrite Hx, (Hl y) by left.
  case_decide; [|done]. f_equal. apply IH. intros z Hz. apply Hl. by right.
Qed.

Lemma sorted_reverse_ext key1 key2 l :
  (∀ y, y ∈ l → key1 y = key2 y) →
  sorted_reverse key1 l = sorted_reverse key2 l.
Proof.
  induction l as [|x l IH]; intros Hl; [done|].
  rewrite !sorted_reverse_cons, IH by (intros; apply Hl; by right).
  apply insert_reverse_ext; [apply Hl; left|].
  intros y Hy. apply Hl. right. by rewrite sorted_reverse_Permutation in Hy.
Qed.

Lemma insert_reverse_fmap {B} (f : B → A) key x (l : list B) :
  insert_reverse key (f x) (f <$> l) = f <$> insert_reverse (key ∘ f) x l.
Proof.
  induction l as [|y l IH]; csimpl; [done|]. unfold compose at 1.
  case_decide; csimpl; [by rewrite IH|done].
Qed.

Lemma sorted_reverse_fmap {B} (f : B → A) key (l : list B) :
  sorted_reverse key (f <$> l) = f <$> sorted_reverse (key ∘ f) l.
Proof.
  induction l as [|x l IH]; [done|].
  by rewrite fmap_cons, !sorted_reverse_cons, IH, insert_reverse_fmap.
Qed.
End SortedFacts.

(** * Facts about [generate_intersections] *)

Section GenerateIntersectionsFacts.
Context {Geometry : Type} (intersects : Geometry → Geometry → bool).
Implicit Types (records rs : list (@record Geometry)) (d : dict).
Implicit Types (n k : string) (acc : list string).

Lemma city2_step_elem city1 acc city2 n :
  n ∈ city2_step intersects city1 acc city2
  ↔ n ∈ acc ∨ adjoins intersects city1 city2 n.
Proof.
  unfold city2_step, adjoins.
  repeat case_bool_decide; simpl;
    destruct (intersects _ _) eqn:Hi;
    rewrite ?elem_of_app, ?list_elem_of_singleton; naive_solver.
Qed.

Lemma city2_loop_elem city1 rs acc n :
  n ∈ foldl (city2_step intersects city1) acc rs
  ↔ n ∈ acc ∨ ∃ city2, city2 ∈ rs ∧ adjoins intersects city1 city2 n.
Proof.
  revert acc. induction rs as [|c rs IH]; intros acc; simpl.
  { split; [auto|]. intros [?|(?&[]%not_elem_of_nil&_)]; done. }
  rewrite IH, city2_step_elem. setoid_rewrite elem_of_cons. naive_solver.
Qed.

Lemma city2_step_NoDup city1 acc city2 :
  NoDup acc → NoDup (city2_step intersects city1 acc city2).
Proof.
  intros Hnd. unfold city2_step.
  repeat case_bool_decide; simpl; try done.
  destruct (intersects _ _); [|done].
  apply NoDup_app. split_and!; [done| |apply NoDup_singleton].
  intros x Hx ->%list_elem_of_singleton. done.
Qed.

Lemma city2_loop_NoDup city1 rs acc :
  NoDup acc → NoDup (foldl (city2_step intersects city1) acc rs).
Proof.
  revert acc. induction rs as [|c rs IH]; intros acc Hnd; simpl; [done|].
  by apply IH, city2_step_NoDup.
Qed.
(** The outer loop, one record at a time. *)
Lemma city1_loop_snoc records rs c :
  foldl (city1_step intersects records) [] (rs ++ [c])
  = city1_step intersects records
      (foldl (city1_step intersects records) [] rs) c.
Proof. by rewrite foldl_app. Qed.

Lemma city1_step_cases records d c :
  (city1_step intersects records d c = d
   ∧ (name c = "" ∨ name c ∈ d.*1))
  ∨ (city1_step intersects records d c
     = d ++ [(name c, foldl (city2_step intersects c) [] records)]
     ∧ name c ≠ "" ∧ name c ∉ d.*1).
Proof.
  unfold city1_step, dict_contains.
  repeat case_bool_decide; simpl; naive_solver.
Qed.

Lemma city1_loop_keys records rs k :
  k ∈ (foldl (city1_step intersects records) [] rs).*1
  ↔ k ≠ "" ∧ ∃ c, c ∈ rs ∧ name c = k.
Proof.
  induction rs as [|c rs IH] using rev_ind.
  { simpl. split; [by intros ?%not_elem_of_nil|].
    by intros (_&c&?%not_elem_of_nil&_). }
  rewrite city1_loop_snoc.
  set (d := foldl (city1_step intersects records) [] rs) in *.
  destruct (city1_step_cases records d c) as [[-> Hs]|(-> & Hne & Hnin)].
  - rewrite IH. split.
    + intros (?&c'&?&?). split; [done|]. exists c'.
      rewrite elem_of_app. auto.
    + intros (Hk&c'&[Hc'| ->%list_elem_of_singleton]%elem_of_app&Hn).
      { eauto. }
      destruct Hs as [?|Hs]; [congruence|]. subst k. by apply IH.
  - rewrite fmap_app, elem_of_app, IH. simpl.
    rewrite list_elem_of_singleton. split.
    + intros [(?&c'&?&?)| ->].
      * split; [done|]. exists c'. rewrite elem_of_app. auto.
      * split; [done|]. exists c. rewrite elem_of_app.
        split; [right; by apply list_elem_of_singleton|done].
    + intros (Hk&c'&[Hc'| ->%list_elem_of_singleton]%elem_of_app&Hn);
        [left; eauto|by right].
Qed.

Lemma city1_loop_NoDup records rs :
  NoDup (foldl (city1_step intersects records) [] rs).*1.
Proof.
  induction rs as [|c rs IH] using rev_ind; [constructor|].
  rewrite city1_loop_snoc.
  set (d := foldl (city1_step intersects records) [] rs) in *.
  destruct (city1_step_cases records d c) as [[-> Hs]|(-> & Hne & Hnin)];
    [done|].
  rewrite fmap_app. apply NoDup_app. split_and!; [done| |apply NoDup_singleton].
  intros x Hx ->%list_elem_of_singleton. done.
Qed.

(** An entry holds what the inner loop computes for the first record of
    its name. *)
Lemma city1_loop_entry records rs k nbrs :
  (k, nbrs) ∈ foldl (city1_step intersects records) [] rs →
  ∃ i city1, list_find (λ r, name r = k) rs = Some (i, city1)
    ∧ nbrs = foldl (city2_step intersects city1) [] records.
Proof.
  induction rs as [|c rs IH] using rev_ind.
  { by intros ?%not_elem_of_nil. }
  rewrite city1_loop_snoc.
  set (d := foldl (city1_step intersects records) [] rs) in *.
  destruct (city1_step_cases records d c) as [[-> Hs]|(-> & Hne & Hnin)].
  - intros (i&city1&Hf&->)%IH. exists i, city1.
    split; [|done]. by apply list_find_app_l.
  - intros [(i&city1&Hf&->)%IH|Heq%list_elem_of_singleton]%elem_of_app.
    { exists i, city1. split; [|done]. by apply list_find_app_l. }
    simplify_eq. exists (length rs), c. split; [|done].
    apply list_find_app_Some. right. split_and!; [lia| |].
    + apply list_find_None, Forall_forall. intros c' Hc' Hn.
      apply Hnin, city1_loop_keys. eauto.
    + rewrite Nat.sub_diag. simpl. by rewrite decide_True.
Qed.

Lemma sublist_pair_snoc {A} (a b x : A) (l : list A) :
  [a; b] `sublist_of` l ++ [x] → [a; b] `sublist_of` l ∨ (a ∈ l ∧ b = x).
Proof.
  intros (l1&l2&Heq&H1&H2)%sublist_app_r.
  destruct l2 as [|y [|z l2]].
  - rewrite app_nil_r in Heq. subst l1. by left.
  - destruct l1 as [|a' [|b' l1]]; simplify_eq/=; [|by destruct l1].
    right. split.
    + by apply singleton_sublist_l.
    + by apply singleton_sublist_l, list_elem_of_singleton in H2.
  - apply sublist_length in H2. simpl in H2. lia.
Qed.

(** The keys come in the order in which their names first occur. *)
Lemma city1_loop_order records rs k1 k2 :
  [k1; k2] `sublist_of` (foldl (city1_step intersects records) [] rs).*1 →
  ∃ i j, first_index rs k1 = Some i ∧ first_index rs k2 = Some j ∧ i < j.
Proof.
  unfold first_index.
  induction rs as [|c rs IH] using rev_ind.
  { simpl. by intros ?%sublist_nil_r. }
  rewrite city1_loop_snoc.
  set (d := foldl (city1_step intersects records) [] rs) in *.
  assert (∀ k i, fst <$> list_find (λ r, name r = k) rs = Some i →
            fst <$> list_find (λ r, name r = k) (rs ++ [c]) = Some i)
    as Hmono.
  { intros k i ([i' r]&Hf&?)%fmap_Some. simplify_eq/=.
    by rewrite (list_find_app_l _ _ _ _ _ Hf). }
  destruct (city1_step_cases records d c) as [[-> Hs]|(-> & Hne & Hnin)].
  - intros (i&j&?&?&?)%IH. exists i, j. auto.
  - rewrite fmap_app. simpl.
    intros [(i&j&?&?&?)%IH|[Hk1 ->]]%sublist_pair_snoc.
    { exists i, j. auto. }
    apply city1_loop_keys in Hk1 as (_&c1&Hc1&Hn1).
    destruct (list_find_elem_of (λ r, name r = k1) rs c1) as [[i r] Hf];
      [done..|].
    exists i, (length rs). split_and!.
    + apply Hmono. by rewrite Hf.
    + assert (list_find (λ r, name r = name c) (rs ++ [c])
              = Some (length rs, c)) as ->; [|done].
      apply list_find_app_Some. right. split_and!; [lia| |].
      * apply list_find_None, Forall_forall. intros c' Hc' Hn.
        apply Hnin, city1_loop_keys. eauto.
      * rewrite Nat.sub_diag. simpl. by rewrite decide_True.
    + apply list_find_Some in Hf as (Hl&_). by apply lookup_lt_Some in Hl.
Qed.
Lemma city1_loop_retained records rs d seen :
  (∀ k, k ∈ seen ↔ k ∈ d.*1) →
  (foldl (city1_step intersects records) d rs).*1
  = d.*1 ++ (name <$> retained_from seen rs).
Proof.
  revert d seen. induction rs as [|c rs IH]; intros d seen Hseen; simpl.
  { by rewrite app_nil_r. }
  unfold city1_step at 2, dict_contains.
  rewrite (bool_decide_ext (name c ∈ d.*1) (name c ∈ seen))
    by (symmetry; apply Hseen).
  destruct (bool_decide (name c = "") || bool_decide (name c ∈ seen)).
  - by apply IH.
  - rewrite (IH _ (name c :: seen)), fmap_app; csimpl.
    + by rewrite <-app_assoc.
    + intros k. rewrite fmap_app, elem_of_cons, elem_of_app, Hseen. simpl.
      rewrite list_elem_of_singleton. tauto.
Qed.

(** Reading the dictionary back by key. *)
Lemma dict_get_elem d k v : NoDup d.*1 → (k, v) ∈ d → dict_get d k = v.
Proof.
  intros Hnd Hin. unfold dict_get.
  destruct (list_find_elem_of (λ e, e.1 = k) d (k, v)) as [[i [k' v']] Hf];
    [done..|].
  rewrite Hf. simpl.
  apply list_find_Some in Hf as (Hl%list_elem_of_lookup_2&?&_).
  simplify_eq/=.
  apply list_elem_of_lookup in Hin as [a Ha].
  apply list_elem_of_lookup in Hl as [b Hb].
  assert (a = b) as ->; [|congruence].
  eapply NoDup_lookup; [exact Hnd|by rewrite list_lookup_fmap, Ha
                                 |by rewrite list_lookup_fmap, Hb].
Qed.

(** The result is the list of items of [intersections], sorted. *)
Lemma generate_intersections_items records :
  generate_intersections intersects records
  = sorted_reverse (λ e, length e.2) (intersections_of intersects records).
Proof.
  unfold generate_intersections.
  pose proof (city1_loop_NoDup records records) as Hnd.
  fold (intersections_of intersects records) in Hnd.
  set (d := intersections_of intersects records) in *.
  rewrite sorted_reverse_fmap, <-list_fmap_compose.
  rewrite (sorted_reverse_ext _ (λ e, length e.2)).
  - rewrite <-(list_fmap_id (sorted_reverse _ d)) at 2.
    apply list_fmap_ext. intros i [k v] Hl%list_elem_of_lookup_2.
    rewrite sorted_reverse_Permutation in Hl. simpl.
    by rewrite (dict_get_elem d k v).
  - intros [k v] Hin. simpl. by rewrite (dict_get_elem d k v).
Qed.

Lemma generate_intersections_Permutation records :
  generate_intersections intersects records
  ≡ₚ intersections_of intersects records.
Proof.
  rewrite generate_intersections_items. apply sorted_reverse_Permutation.
Qed.

(** An item of the result: the first record of that name, and the names
    the inner loop collects for it. *)
Lemma generate_intersections_item records k nbrs :
  (k, nbrs) ∈ generate_intersections intersects records →
  ∃ city1, first_record records k = Some city1 ∧ name city1 = k
    ∧ NoDup nbrs
    ∧ ∀ n, n ∈ nbrs
           ↔ ∃ city2, city2 ∈ records ∧ adjoins intersects city1 city2 n.
Proof.
  rewrite generate_intersections_Permutation.
  intros (i&city1&Hf&->)%city1_loop_entry. exists city1.
  unfold first_record. rewrite Hf. split_and!; [done| | |].
  - by apply list_find_Some in Hf as (_&?&_).
  - apply city2_loop_NoDup. constructor.
  - intros n. rewrite city2_loop_elem, elem_of_nil. tauto.
Qed.

Lemma generate_intersections_keys records k :
  k ∈ (generate_intersections intersects records).*1
  ↔ k ≠ "" ∧ ∃ c, c ∈ records ∧ name c = k.
Proof.
  rewrite generate_intersections_Permutation. apply city1_loop_keys.
Qed.
End GenerateIntersectionsFacts.

(** * Facts about [greedy_coloring] *)

Lemma reverse_shuffle_Permutation rs colors :
  (Sample.reverse_shuffle rs colors).2 ≡ₚ colors.
Proof. apply reverse_Permutation. Qed.

Lemma length_omap_le {A B} (f : A → option B) (l : list A) :
  length (omap f l) ≤ length l.
Proof.
  induction l as [|x l IH]; csimpl; [done|].
  destruct (f x); simpl; lia.
Qed.

Section GreedyColoringFacts.
Context {Color : Type} `{!EqDecision Color} {RandomState : Type}.
Variable random_shuffle :
  RandomState → list Color → RandomState * list Color.
Implicit Types (cm : gmap string Color) (st : @state Color RandomState).
Implicit Types (ns : list string) (colors : list Color).
Implicit Types (items : list (string * list string)).

(** A colour is blocked when a neighbour already carries it. *)
Lemma neighbor_loop_true cm c ns :
  neighbor_loop cm c ns = true ↔ ∃ n, n ∈ ns ∧ cm !! n = Some c.
Proof.
  induction ns as [|n ns IH]; simpl.
  { split; [done|]. by intros (?&?%not_elem_of_nil&_). }
  setoid_rewrite elem_of_cons.
  destruct (cm !! n) as [c'|] eqn:Hn.
  - rewrite (bool_decide_eq_true_2 (is_Some _)) by eauto. simpl.
    case_bool_decide as Hc.
    + split; [|done]. intros _. exists n. split; [by left|congruence].
    + rewrite IH. split; [naive_solver|].
      intros (n'&[->|?]&Hc'); [congruence|eauto].
  - rewrite (bool_decide_eq_false_2 (is_Some _)) by (by intros [??]).
    simpl. rewrite IH. split; [naive_solver|].
    intros (n'&[->|?]&Hc'); [congruence|eauto].
Qed.

Lemma neighbor_loop_false cm c ns :
  neighbor_loop cm c ns = false ↔ ∀ n, n ∈ ns → cm !! n ≠ Some c.
Proof.
  rewrite <-not_true_iff_false, neighbor_loop_true. naive_solver.
Qed.

(** The colour loop either finds every colour blocked and leaves the
    dictionary alone, or stores a free colour under [city]. *)
Lemma color_loop_cases cm city ns colors :
  (color_loop cm city ns colors = cm
   ∧ ∀ c, c ∈ colors → neighbor_loop cm c ns = true)
  ∨ (∃ c, c ∈ colors ∧ neighbor_loop cm c ns = false
          ∧ color_loop cm city ns colors = <[city := c]> cm).
Proof.
  induction colors as [|c colors IH]; simpl.
  { left. split; [done|]. by intros c ?%not_elem_of_nil. }
  destruct (neighbor_loop cm c ns) eqn:Hc.
  - destruct IH as [[-> Hall]|(c'&?&?&->)].
    + left. split; [done|]. by intros c' [->|?]%elem_of_cons; auto.
    + right. exists c'. split_and!; [by right|done..].
  - right. exists c. split_and!; [by left|done..].
Qed.

(** Pigeonhole: more distinct colours than neighbours leave one free. *)
Lemma free_color cm ns colors :
  NoDup colors → length ns < length colors →
  ¬ ∀ c, c ∈ colors → neighbor_loop cm c ns = true.
Proof.
  intros Hnd Hlen Hall.
  assert (colors ⊆+ omap (λ n, cm !! n) ns) as Hsub.
  { apply NoDup_submseteq; [done|]. intros c Hc.
    apply list_elem_of_omap, neighbor_loop_true. auto. }
  apply submseteq_length in Hsub.
  pose proof (length_omap_le (λ n, cm !! n) ns). lia.
Qed.

(** One turn of the outer loop. *)
Lemma city_step_Return st city ns st' :
  city_step random_shuffle st (city, ns) = Return st' →
  random_state st' = (random_shuffle (random_state st) (colors_of st)).1
  ∧ colors_of st' = (random_shuffle (random_state st) (colors_of st)).2
  ∧ is_Some (colormap_of st' !! city)
  ∧ (colormap_of st' = colormap_of st
     ∨ ∃ c, c ∈ colors_of st'
            ∧ (∀ n, n ∈ ns → colormap_of st !! n ≠ Some c)
            ∧ colormap_of st' = <[city := c]> (colormap_of st)).
Proof.
  unfold city_step.
  destruct (random_shuffle _ _) as [rs colors'] eqn:Hsh. simpl.
  case_bool_decide as Hnone; [done|]. intros [= <-]. simpl.
  split_and!; [done..| |].
  - by apply not_eq_None_Some.
  - destruct (color_loop_cases (colormap_of st) city ns colors')
      as [[-> _]|(c&?&Hfree&->)]; [by left|].
    right. exists c. split_and!; [done| |done].
    by apply neighbor_loop_false.
Qed.

Lemma city_step_Raise st city ns msg :
  city_step random_shuffle st (city, ns) = Raise msg →
  msg = "Could not find color for " +:+ city
  ∧ ∀ c, c ∈ (random_shuffle (random_state st) (colors_of st)).2 →
         ∃ n, n ∈ ns ∧ colormap_of st !! n = Some c.
Proof.
  unfold city_step.
  destruct (random_shuffle _ _) as [rs colors'] eqn:Hsh. simpl.
  case_bool_decide as Hnone; [|done]. intros [= <-]. split; [done|].
  destruct (color_loop_cases (colormap_of st) city ns colors')
    as [[_ Hall]|(c&_&_&Heq)].
  - intros c Hc. by apply neighbor_loop_true, Hall.
  - by rewrite Heq, lookup_insert_eq in Hnone.
Qed.

Lemma city_step_blocked st city ns :
  colormap_of st !! city = None →
  (∀ c, c ∈ (random_shuffle (random_state st) (colors_of st)).2 →
        ∃ n, n ∈ ns ∧ colormap_of st !! n = Some c) →
  city_step random_shuffle st (city, ns) = Raise ("Could not find color for " +:+ city).
Proof.
  intros Hnone Hall. unfold city_step.
  destruct (random_shuffle _ _) as [rs colors'] eqn:Hsh. simpl in *.
  destruct (color_loop_cases (colormap_of st) city ns colors')
    as [[-> _]|(c&Hc&Hfree&_)].
  - by rewrite bool_decide_eq_true_2.
  - apply Hall, neighbor_loop_true in Hc. congruence.
Qed.

Lemma city_step_free st city ns :
  ¬ (∀ c, c ∈ (random_shuffle (random_state st) (colors_of st)).2 →
          neighbor_loop (colormap_of st) c ns = true) →
  ∃ st', city_step random_shuffle st (city, ns) = Return st'.
Proof.
  intros Hfree. unfold city_step.
  destruct (random_shuffle _ _) as [rs colors'] eqn:Hsh. simpl in *.
  destruct (color_loop_cases (colormap_of st) city ns colors')
    as [[_ Hall]|(c&_&_&->)]; [done|].
  rewrite lookup_insert_eq, bool_decide_eq_false_2 by done. eauto.
Qed.
(** The outer loop. *)
Lemma city_loop_cons item items st :
  city_loop random_shuffle (item :: items) st
  = bind (city_step random_shuffle st item) (city_loop random_shuffle items).
Proof. reflexivity. Qed.

Lemma city_loop_app items1 items2 st :
  city_loop random_shuffle (items1 ++ items2) st
  = bind (city_loop random_shuffle items1 st)
         (city_loop random_shuffle items2).
Proof.
  revert st. induction items1 as [|item items1 IH]; intros st; [done|].
  rewrite <-app_comm_cons, !city_loop_cons.
  destruct (city_step random_shuffle st item); simpl; [apply IH|done].
Qed.

(** Only the cities of the loop are written. *)
Lemma city_loop_frame items st st' k :
  city_loop random_shuffle items st = Return st' → k ∉ items.*1 →
  colormap_of st' !! k = colormap_of st !! k.
Proof.
  revert st. induction items as [|[city ns] items IH]; intros st;
    [simpl|rewrite city_loop_cons, ?fmap_cons].
  { by intros [= ->]. }
  destruct (city_step random_shuffle st (city, ns)) as [st1|] eqn:Hstep;
    simpl; [|done].
  intros Hloop [Hne Hnin]%not_elem_of_cons. rewrite (IH _ Hloop Hnin).
  apply city_step_Return in Hstep as (_&_&_&[->|(c&_&_&->)]); [done|].
  by rewrite lookup_insert_ne.
Qed.

(** No entry is ever removed. *)
Lemma city_loop_mono items st st' k :
  city_loop random_shuffle items st = Return st' →
  is_Some (colormap_of st !! k) → is_Some (colormap_of st' !! k).
Proof.
  revert st. induction items as [|[city ns] items IH]; intros st;
    [simpl|rewrite city_loop_cons, ?fmap_cons].
  { by intros [= ->]. }
  destruct (city_step random_shuffle st (city, ns)) as [st1|] eqn:Hstep;
    simpl; [|done].
  intros Hloop Hk. apply (IH _ Hloop).
  apply city_step_Return in Hstep as (_&_&_&[->|(c&_&_&->)]); [done|].
  rewrite lookup_insert_is_Some. destruct (decide (city = k)); auto.
Qed.

(** Every city of a loop that ends normally has a colour. *)
Lemma city_loop_covers items st st' k :
  city_loop random_shuffle items st = Return st' → k ∈ items.*1 →
  is_Some (colormap_of st' !! k).
Proof.
  revert st. induction items as [|[city ns] items IH]; intros st;
    [simpl|rewrite city_loop_cons, ?fmap_cons].
  { by intros _ ?%not_elem_of_nil. }
  destruct (city_step random_shuffle st (city, ns)) as [st1|] eqn:Hstep;
    simpl; [|done].
  intros Hloop [->|Hin]%elem_of_cons; [|by eapply IH].
  eapply city_loop_mono; [done|].
  by apply city_step_Return in Hstep as (_&_&?&_).
Qed.

(** The turn at which the loop raises. *)
Lemma city_loop_Raise items st msg :
  city_loop random_shuffle items st = Raise msg →
  ∃ pre city ns post st1,
    items = pre ++ (city, ns) :: post
    ∧ city_loop random_shuffle pre st = Return st1
    ∧ city_step random_shuffle st1 (city, ns) = Raise msg.
Proof.
  revert st. induction items as [|[city ns] items IH]; intros st;
    [done|rewrite city_loop_cons].
  destruct (city_step random_shuffle st (city, ns)) as [st1|msg'] eqn:Hstep;
    simpl.
  - intros (pre&city'&ns'&post&st2&->&Hpre&Hraise)%IH.
    exists ((city, ns) :: pre), city', ns', post, st2.
    split_and!; [done| |done].
    by rewrite city_loop_cons, Hstep.
  - intros [= ->]. by exists [], city, ns, items, st.
Qed.

Section Shuffle.
Hypothesis random_shuffle_Permutation :
  ∀ rs colors, (random_shuffle rs colors).2 ≡ₚ colors.

(** The palette keeps its colours. *)
Lemma city_loop_colors items st st' :
  city_loop random_shuffle items st = Return st' →
  colors_of st' ≡ₚ colors_of st.
Proof.
  revert st. induction items as [|[city ns] items IH]; intros st;
    [simpl|rewrite city_loop_cons].
  { by intros [= ->]. }
  destruct (city_step random_shuffle st (city, ns)) as [st1|] eqn:Hstep;
    simpl; [|done].
  intros ->%IH.
  apply city_step_Return in Hstep as (_&->&_). auto.
Qed.

(** A colour stored by the loop comes from the palette. *)
Lemma city_loop_palette items st st' k c :
  city_loop random_shuffle items st = Return st' →
  colormap_of st' !! k = Some c →
  colormap_of st !! k = Some c ∨ c ∈ colors_of st.
Proof.
  revert st. induction items as [|[city ns] items IH]; intros st;
    [simpl|rewrite city_loop_cons].
  { intros [= ->]. auto. }
  destruct (city_step random_shuffle st (city, ns)) as [st1|] eqn:Hstep;
    simpl; [|done].
  intros Hloop Hk. destruct (IH _ Hloop Hk) as [Hk1|Hc].
  - apply city_step_Return in Hstep as (_&Hcol&_&[Heq|(c'&Hc'&_&Heq)]);
      rewrite Heq in Hk1; [by left|].
    apply lookup_insert_Some in Hk1 as [[_ <-]|[_ ?]]; [|by left].
    right. by rewrite Hcol, random_shuffle_Permutation in Hc'.
  - right. apply city_step_Return in Hstep as (_&Hcol&_).
    by rewrite Hcol, random_shuffle_Permutation in Hc.
Qed.

(** A palette of distinct colours, larger than every neighbour list,
    carries the loop to its end. *)
Lemma city_loop_succeeds items st :
  NoDup (colors_of st) → max_neighbors items < length (colors_of st) →
  ∃ st', city_loop random_shuffle items st = Return st'.
Proof.
  revert st. unfold max_neighbors.
  induction items as [|[city ns] items IH]; intros st Hnd Hlen;
    [by eexists|].
  rewrite city_loop_cons. rewrite fmap_cons in Hlen. simpl in Hlen.
  destruct (city_step_free st city ns) as [st1 Hstep].
  { apply free_color.
    - by rewrite random_shuffle_Permutation.
    - rewrite random_shuffle_Permutation. lia. }
  rewrite Hstep. simpl.
  apply city_step_Return in Hstep as (_&Hcol&_).
  apply IH; rewrite Hcol, random_shuffle_Permutation; [done|lia].
Qed.
End Shuffle.
End GreedyColoringFacts.

(** * Properties of [generate_intersections] *)

Section GenerateIntersectionsProperties.
Context {Geometry : Type} (intersects : Geometry → Geometry → bool).
Implicit Types (records : list (@record Geometry)).

(** C3: the items of the returned mapping come in non-increasing order of
    neighbour-list length, and of two items with lists of the same length
    the one that comes first is the one whose name occurs first in the
    input. *)
Theorem generate_intersections_most_neighbors_first records :
  StronglySorted (λ a b, length b.2 ≤ length a.2)
    (generate_intersections intersects records)
  ∧ ∀ e1 e2,
      [e1; e2] `sublist_of` generate_intersections intersects records →
      length e1.2 = length e2.2 →
      ∃ i j, first_index records e1.1 = Some i
             ∧ first_index records e2.1 = Some j ∧ i < j.
Proof.
  rewrite generate_intersections_items. split.
  - apply (sorted_reverse_sorted (λ e, length e.2)).
  - intros e1 e2 Hsub Hlen.
    apply (sorted_reverse_stable (λ e, length e.2)) in Hsub; [|done].
    apply (fmap_sublist fst) in Hsub.
    by apply (city1_loop_order intersects records records).
Qed.

(** C6, as the code has it: the keys are the names of the retained
    records (the first record of each distinct non-empty name), and the
    geometry tested for a key is that of its first record; but it is
    tested against every record of the input, so a name enters the list
    of a key exactly when some record of that name, first of its name or
    not, is non-empty, differs from the key and intersects it. *)
Theorem generate_intersections_tests_every_record records :
  (generate_intersections intersects records).*1
    ≡ₚ name <$> retained records
  ∧ ∀ k nbrs,
      (k, nbrs) ∈ generate_intersections intersects records →
      ∃ city1, first_record records k = Some city1
        ∧ ∀ n, n ∈ nbrs
               ↔ ∃ city2, city2 ∈ records
                          ∧ adjoins intersects city1 city2 n.
Proof.
  split.
  - rewrite generate_intersections_Permutation. unfold intersections_of.
    by rewrite (city1_loop_retained _ _ _ [] []).
  - intros k nbrs (city1&?&_&_&?)%generate_intersections_item. eauto.
Qed.

(** C7: in the returned mapping no neighbour list holds the name of its
    own region, and no neighbour list holds a name twice. *)
Theorem generate_intersections_no_self_no_duplicates records k nbrs :
  (k, nbrs) ∈ generate_intersections intersects records →
  (k ∉ nbrs) ∧ NoDup nbrs.
Proof.
  intros (city1&_&Hname&Hnd&Hin)%generate_intersections_item.
  split; [|done].
  intros (city2&_&_&Hne&_)%Hin. congruence.
Qed.

(** C9: the empty name is no key of the returned mapping and occurs in no
    neighbour list, whatever the geometries of the unnamed records. *)
Theorem generate_intersections_excludes_empty_name records :
  ("" ∉ (generate_intersections intersects records).*1)
  ∧ ∀ k nbrs,
      (k, nbrs) ∈ generate_intersections intersects records → "" ∉ nbrs.
Proof.
  split.
  - by intros [? _]%generate_intersections_keys.
  - intros k nbrs (city1&_&_&_&Hin)%generate_intersections_item.
    by intros (city2&_&?&_)%Hin.
Qed.

(** C10: every name in a neighbour list of the returned mapping is a key
    of the returned mapping. *)
Theorem generate_intersections_closed records k nbrs n :
  (k, nbrs) ∈ generate_intersections intersects records →
  n ∈ nbrs →
  n ∈ (generate_intersections intersects records).*1.
Proof.
  intros (city1&_&_&_&Hin)%generate_intersections_item.
  intros (city2&?&?&_&?&_)%Hin.
  apply generate_intersections_keys. eauto.
Qed.
End GenerateIntersectionsProperties.

Example generate_intersections_twice_B :
  generate_intersections Sample.touches Sample.twice_B
  = [("A", ["B"]); ("B", [])].
Proof. reflexivity. Qed.

Example generate_intersections_retained_twice_B :
  generate_intersections Sample.touches (retained Sample.twice_B)
  = [("A", []); ("B", [])].
Proof. reflexivity. Qed.

Example generate_intersections_unnamed :
  generate_intersections Sample.touches Sample.unnamed
  = [("A", ["C"]); ("C", ["A"]); ("D", [])].
Proof. reflexivity. Qed.

Lemma most_neighbors_first_witness :
  ∃ i j, first_index Sample.unnamed "A" = Some i
         ∧ first_index Sample.unnamed "C" = Some j ∧ i < j.
Proof.
  apply (proj2 (generate_intersections_most_neighbors_first
                  Sample.touches Sample.unnamed)
               ("A", ["C"]) ("C", ["A"])).
  - vm_compute. repeat constructor.
  - reflexivity.
Defined.

(** C6 as stated fails: the second record called [B] is tested against [A]
    and makes [B] a neighbour of [A], which the retained records alone do
    not. *)
Lemma later_duplicate_not_ignored :
  ¬ ignores_later_duplicates Sample.touches Sample.twice_B.
Proof. unfold ignores_later_duplicates. vm_compute. discriminate. Qed.

Lemma tests_every_record_witness :
  ∃ city1, first_record Sample.twice_B "A" = Some city1
    ∧ ∀ n, n ∈ ["B"]
           ↔ ∃ city2, city2 ∈ Sample.twice_B
                      ∧ adjoins Sample.touches city1 city2 n.
Proof.
  apply (proj2 (generate_intersections_tests_every_record
                  Sample.touches Sample.twice_B) "A" ["B"]).
  vm_compute. left.
Defined.

Lemma no_self_no_duplicates_witness : ("A" ∉ ["B"]) ∧ NoDup ["B"].
Proof.
  apply (generate_intersections_no_self_no_duplicates
           Sample.touches Sample.twice_B "A" ["B"]).
  vm_compute. left.
Defined.

Lemma excludes_empty_name_witness : "" ∉ ["C"].
Proof.
  apply (proj2 (generate_intersections_excludes_empty_name
                  Sample.touches Sample.unnamed) "A" ["C"]).
  vm_compute. left.
Defined.

Lemma closed_witness :
  "C" ∈ (generate_intersections Sample.touches Sample.unnamed).*1.
Proof.
  apply (generate_intersections_closed
           Sample.touches Sample.unnamed "A" ["C"] "C").
  - vm_compute. left.
  - left.
Defined.

(** * Properties of [greedy_coloring] *)

Section GreedyColoringProperties.
Context {Color : Type} `{!EqDecision Color} {RandomState : Type}.
Variable random_shuffle :
  RandomState → list Color → RandomState * list Color.
Implicit Types (rs : RandomState) (colors : list Color).
Implicit Types (neighbors_map : list (string * list string)).
Implicit Types (colormap : gmap string Color).

Lemma greedy_coloring_Return rs neighbors_map colors colormap :
  greedy_coloring random_shuffle rs neighbors_map colors = Return colormap
  ↔ ∃ st, city_loop random_shuffle neighbors_map (State rs colors ∅)
          = Return st
          ∧ colormap_of st = colormap.
Proof.
  unfold greedy_coloring.
  destruct (city_loop _ _ _) as [st|msg]; simpl; split.
  - intros [= <-]. eauto.
  - by intros (st'&[= <-]&<-).
  - done.
  - by intros (?&?&_).
Qed.

Lemma greedy_coloring_Raise rs neighbors_map colors msg :
  greedy_coloring random_shuffle rs neighbors_map colors = Raise msg
  ↔ city_loop random_shuffle neighbors_map (State rs colors ∅) = Raise msg.
Proof.
  unfold greedy_coloring.
  destruct (city_loop _ _ _) as [st|msg']; simpl; split; congruence.
Qed.

(** C1: with a palette of distinct colours that has at least one colour
    more than the longest neighbour list, the call returns, whatever
    permutations the shuffles produce; the returned mapping has a colour
    of the palette for every region of the model, and for nothing else. *)
Theorem greedy_coloring_succeeds rs neighbors_map colors :
  (∀ rs' colors', (random_shuffle rs' colors').2 ≡ₚ colors') →
  NoDup colors →
  max_neighbors neighbors_map + 1 ≤ length colors →
  ∃ colormap,
    greedy_coloring random_shuffle rs neighbors_map colors = Return colormap
    ∧ (∀ city, city ∈ neighbors_map.*1 ↔ is_Some (colormap !! city))
    ∧ (∀ city color, colormap !! city = Some color → color ∈ colors).
Proof.
  intros Hperm Hnd Hlen.
  destruct (city_loop_succeeds random_shuffle Hperm neighbors_map
              (State rs colors ∅)) as [st Hloop]; simpl; [done|lia|].
  exists (colormap_of st). split_and!.
  - apply greedy_coloring_Return. eauto.
  - intros city. split; [by eapply city_loop_covers|].
    intros Hsome. destruct (decide (city ∈ neighbors_map.*1)); [done|].
    rewrite (city_loop_frame _ _ _ _ _ Hloop) in Hsome by done.
    simpl in Hsome. rewrite lookup_empty in Hsome. by destruct Hsome.
  - intros city color Hc.
    destruct (city_loop_palette _ Hperm _ _ _ _ _ Hloop Hc) as [Hc'|?];
      [|done].
    simpl in Hc'. by rewrite lookup_empty in Hc'.
Qed.

(** C2: in the mapping of a call that returns, a region and a neighbour
    of its list that comes before it in the model have different colours.
    The model is a mapping, so its keys are distinct; the random state and
    the shuffle are arbitrary. *)
Theorem greedy_coloring_conflict_free rs neighbors_map colors colormap
    pre city neighbors post neighbor :
  NoDup neighbors_map.*1 →
  greedy_coloring random_shuffle rs neighbors_map colors = Return colormap →
  neighbors_map = pre ++ (city, neighbors) :: post →
  neighbor ∈ neighbors →
  neighbor ∈ pre.*1 →
  ∃ color color',
    colormap !! city = Some color ∧ colormap !! neighbor = Some color'
    ∧ color ≠ color'.
Proof.
  intros Hnd (st3&Hloop&<-)%greedy_coloring_Return -> Hn Hpre.
  rewrite fmap_app, fmap_cons in Hnd. simpl in Hnd.
  apply NoDup_app in Hnd as (_&Hdisj&[Hcity _]%NoDup_cons).
  rewrite city_loop_app in Hloop.
  destruct (city_loop random_shuffle pre _) as [st1|] eqn:Hloop1;
    cbn [bind] in Hloop; [|done].
  rewrite city_loop_cons in Hloop.
  destruct (city_step random_shuffle st1 _) as [st2|] eqn:Hstep;
    cbn [bind] in Hloop; [|done].
  assert (neighbor ≠ city ∧ neighbor ∉ post.*1) as [Hne Hpost].
  { specialize (Hdisj _ Hpre). by apply not_elem_of_cons in Hdisj. }
  assert (city ∉ pre.*1) as Hcity_pre.
  { intros Hin. apply (Hdisj _ Hin). by left. }
  destruct (city_loop_covers _ _ _ _ _ Hloop1 Hpre) as [color' Hn1].
  pose proof (city_loop_frame _ _ _ _ _ Hloop1 Hcity_pre) as Hc1.
  simpl in Hc1. rewrite lookup_empty in Hc1.
  apply city_step_Return in Hstep as (_&_&[color Hc2]&Hcm).
  destruct Hcm as [Heq|(color2&_&Hfree&Heq)]; rewrite Heq in Hc2;
    [congruence|].
  rewrite lookup_insert_eq in Hc2. simplify_eq.
  exists color, color'.
  rewrite !(city_loop_frame _ _ _ _ _ Hloop) by done.
  rewrite Heq, lookup_insert_eq, lookup_insert_ne by done.
  split_and!; [done..|]. intros ->. by apply (Hfree neighbor).
Qed.

(** C4: the call raises exactly when the model splits at some region
    whose turn is reached (the regions before it get the mapping that a
    call on them alone returns) and every colour of the palette is by then
    the colour of one of its neighbours; the regions after it play no
    part, and the exception carries the name of that region. *)
Theorem greedy_coloring_raises_iff rs neighbors_map colors msg :
  (∀ rs' colors', (random_shuffle rs' colors').2 ≡ₚ colors') →
  NoDup neighbors_map.*1 →
  greedy_coloring random_shuffle rs neighbors_map colors = Raise msg
  ↔ ∃ pre city neighbors post colormap,
      neighbors_map = pre ++ (city, neighbors) :: post
      ∧ greedy_coloring random_shuffle rs pre colors = Return colormap
      ∧ (∀ color, color ∈ colors →
           ∃ neighbor, neighbor ∈ neighbors
                       ∧ colormap !! neighbor = Some color)
      ∧ msg = "Could not find color for " +:+ city.
Proof.
  intros Hperm Hnd. rewrite greedy_coloring_Raise. split.
  - intros (pre&city&ns&post&st1&->&Hloop1&Hstep)%city_loop_Raise.
    exists pre, city, ns, post, (colormap_of st1).
    apply city_step_Raise in Hstep as [-> Hall].
    split_and!; [done| |
                 |done].
    + apply greedy_coloring_Return. eauto.
    + intros color Hc. apply Hall.
      rewrite Hperm, (city_loop_colors _ Hperm _ _ _ Hloop1). done.
  - intros (pre&city&ns&post&cm&->&(st1&Hloop1&<-)%greedy_coloring_Return
            &Hall&->).
    rewrite city_loop_app, Hloop1. cbn [bind].
    rewrite city_loop_cons, city_step_blocked; [done| |].
    + rewrite (city_loop_frame _ _ _ _ _ Hloop1); [apply lookup_empty|].
      rewrite fmap_app, fmap_cons in Hnd.
      apply NoDup_app in Hnd as (_&Hdisj&_).
      intros Hin. apply (Hdisj _ Hin). by left.
    + intros color Hc. apply Hall.
      by rewrite Hperm, (city_loop_colors _ Hperm _ _ _ Hloop1) in Hc.
Qed.

(** C5, as the code has it: the palette is not validated.  With an empty
    palette an empty model is answered by the empty mapping, and any other
    model raises the one exception the function has, for its first
    region. *)
Theorem greedy_coloring_empty_palette rs neighbors_map :
  (∀ rs' colors', (random_shuffle rs' colors').2 ≡ₚ colors') →
  greedy_coloring random_shuffle rs neighbors_map []
  = match neighbors_map with
    | [] => Return ∅
    | (city, _) :: _ => Raise ("Could not find color for " +:+ city)
    end.
Proof.
  intros Hperm. destruct neighbors_map as [|[city ns] rest]; [done|].
  unfold greedy_coloring.
  rewrite city_loop_cons, city_step_blocked; [done|apply lookup_empty|].
  simpl. intros color Hc.
  rewrite (proj1 (Permutation_nil_r _) (Hperm rs [])) in Hc.
  by apply not_elem_of_nil in Hc.
Qed.
End GreedyColoringProperties.

(** C8: no record gives the empty mapping, and the empty model gives the
    empty assignment for every palette, the empty one included. *)
Theorem empty_input {Geometry Color RandomState : Type} `{!EqDecision Color}
    (intersects : Geometry → Geometry → bool)
    (random_shuffle : RandomState → list Color → RandomState * list Color) :
  generate_intersections intersects [] = []
  ∧ ∀ rs colors, greedy_coloring random_shuffle rs [] colors = Return ∅.
Proof. split; reflexivity. Qed.

Example greedy_coloring_triangle_three :
  greedy_coloring Sample.reverse_shuffle 0 Sample.triangle Sample.three_colors
  = Return Sample.triangle_colormap.
Proof. vm_compute. reflexivity. Qed.

Example greedy_coloring_triangle_two :
  greedy_coloring Sample.reverse_shuffle 0 Sample.triangle Sample.two_colors
  = Raise "Could not find color for Z".
Proof. vm_compute. reflexivity. Qed.

Lemma succeeds_witness :
  ∃ colormap,
    greedy_coloring Sample.reverse_shuffle 0 Sample.triangle
      Sample.three_colors = Return colormap
    ∧ (∀ city, city ∈ Sample.triangle.*1 ↔ is_Some (colormap !! city))
    ∧ (∀ city color,
         colormap !! city = Some color → color ∈ Sample.three_colors).
Proof.
  apply (greedy_coloring_succeeds Sample.reverse_shuffle 0 Sample.triangle
           Sample.three_colors).
  - apply reverse_shuffle_Permutation.
  - compute_done.
  - vm_compute. lia.
Defined.

Lemma conflict_free_witness :
  ∃ color color',
    Sample.triangle_colormap !! "Z" = Some color
    ∧ Sample.triangle_colormap !! "X" = Some color'
    ∧ color ≠ color'.
Proof.
  apply (greedy_coloring_conflict_free Sample.reverse_shuffle 0
           Sample.triangle Sample.three_colors Sample.triangle_colormap
           [("X", ["Y"; "Z"]); ("Y", ["X"; "Z"])] "Z" ["X"; "Y"] [] "X").
  - compute_done.
  - vm_compute. reflexivity.
  - reflexivity.
  - left.
  - left.
Defined.

Lemma raises_iff_witness :
  greedy_coloring Sample.reverse_shuffle 0 Sample.triangle Sample.two_colors
  = Raise "Could not find color for Z"
  ↔ ∃ pre city neighbors post colormap,
      Sample.triangle = pre ++ (city, neighbors) :: post
      ∧ greedy_coloring Sample.reverse_shuffle 0 pre Sample.two_colors
        = Return colormap
      ∧ (∀ color, color ∈ Sample.two_colors →
           ∃ neighbor, neighbor ∈ neighbors
                       ∧ colormap !! neighbor = Some color)
      ∧ "Could not find color for Z" = "Could not find color for " +:+ city.
Proof.
  apply (greedy_coloring_raises_iff Sample.reverse_shuffle 0 Sample.triangle
           Sample.two_colors "Could not find color for Z").
  - apply reverse_shuffle_Permutation.
  - compute_done.
Defined.

(** C5 as stated fails: an empty palette is not rejected.  With the empty
    model the call returns, and with a region to colour it raises the
    exception of a region that found no colour. *)
Lemma empty_palette_not_rejected :
  greedy_coloring Sample.reverse_shuffle 0 [] [] = Return ∅
  ∧ greedy_coloring Sample.reverse_shuffle 0 [("X", [])] []
    = Raise "Could not find color for X".
Proof. split; reflexivity. Qed.

Lemma empty_palette_witness :
  greedy_coloring Sample.reverse_shuffle 0 Sample.triangle []
  = Raise "Could not find color for X".
Proof.
  apply (greedy_coloring_empty_palette Sample.reverse_shuffle 0
           Sample.triangle).
  apply reverse_shuffle_Permutation.
Defined.

(** * The two loops of [generate_intersections] in closed form *)

Section GenerateIntersectionsClosedForm.
Context {Geometry : Type} (intersects : Geometry → Geometry → bool).
Implicit Types (records rs : list (@record Geometry)) (d : dict).
Implicit Types (acc seen stdout : list string).

Lemma city2_step_output_retained verbose city1 c acc seen stdout :
  (∀ k, k ∈ seen ↔ k ∈ acc) →
  ∃ new seen',
    (∀ k, k ∈ seen' ↔ k ∈ acc ++ new)
    ∧ city2_step_output intersects verbose city1 (acc, stdout) c
      = (acc ++ new,
         stdout ++ if verbose
                   then (λ n, name city1 +:+ " intersects " +:+ n) <$> new
                   else [])
    ∧ city2_step intersects city1 acc c = acc ++ new
    ∧ ∀ rest,
        name <$> retained_from seen
                   (filter (passes intersects city1) (c :: rest))
        = new ++ (name <$> retained_from seen'
                             (filter (passes intersects city1) rest)).
Proof.
  intros Hseen.
  assert (∀ rest, bool_decide (name c = "") || bool_decide (name c ∈ seen)
                  = true →
            name <$> retained_from seen
                       (filter (passes intersects city1) (c :: rest))
            = name <$> retained_from seen
                         (filter (passes intersects city1) rest))
    as Hskip.
  { intros rest Hc. rewrite filter_cons.
    destruct (decide (passes intersects city1 c)); [|done].
    cbn [retained_from]. by rewrite Hc. }
  assert (∀ rest, ¬ passes intersects city1 c →
            name <$> retained_from seen
                       (filter (passes intersects city1) (c :: rest))
            = name <$> retained_from seen
                         (filter (passes intersects city1) rest))
    as Hfail.
  { intros rest Hc. by rewrite filter_cons_False. }
  assert (∀ l : list string, (l, stdout)
            = (l ++ [],
               stdout ++ if verbose
                         then (λ n, name city1 +:+ " intersects " +:+ n)
                                <$> []
                         else [])) as Hsame_state.
  { intros l. destruct verbose; by rewrite !app_nil_r. }
  unfold city2_step_output, city2_step.
  destruct (bool_decide (name c = "")) eqn:Hempty; simpl.
  { exists [], seen. split_and!; [by setoid_rewrite app_nil_r|done
                                   |by rewrite app_nil_r|].
    intros rest. by apply Hskip. }
  destruct (bool_decide (name city1 = name c)) eqn:Hsame; simpl.
  { exists [], seen. apply bool_decide_eq_true in Hsame.
    split_and!; [by setoid_rewrite app_nil_r|done|by rewrite app_nil_r|].
    intros rest. apply Hfail. by intros [? _]. }
  destruct (bool_decide (name c ∈ acc)) eqn:Hin; simpl.
  { exists [], seen. apply bool_decide_eq_true in Hin. apply Hseen in Hin.
    split_and!; [by setoid_rewrite app_nil_r|done|by rewrite app_nil_r|].
    intros rest. apply Hskip. simpl. by apply bool_decide_eq_true. }
  destruct (intersects (geometry city1) (geometry c)) eqn:Hi.
  - exists [name c], (name c :: seen).
    apply bool_decide_eq_false in Hsame, Hin.
    split_and!; [|destruct verbose; by rewrite ?app_nil_r|done|].
    + intros k. rewrite elem_of_cons, elem_of_app, list_elem_of_singleton.
      rewrite Hseen. tauto.
    + intros rest. rewrite filter_cons_True by (split; congruence).
      cbn [retained_from]. rewrite Hempty. simpl.
      rewrite bool_decide_eq_false_2; [done|]. by rewrite Hseen.
  - exists [], seen.
    split_and!; [by setoid_rewrite app_nil_r|done|by rewrite app_nil_r|].
    intros rest. apply Hfail. intros [_ ?]. congruence.
Qed.

Lemma city2_loop_output_retained verbose city1 rs acc seen stdout :
  (∀ k, k ∈ seen ↔ k ∈ acc) →
  let new := name <$> retained_from seen (filter (passes intersects city1) rs) in
  foldl (city2_step_output intersects verbose city1) (acc, stdout) rs
  = (acc ++ new,
     stdout ++ if verbose
               then (λ n, name city1 +:+ " intersects " +:+ n) <$> new
               else [])
  ∧ foldl (city2_step intersects city1) acc rs = acc ++ new.
Proof.
  revert acc seen stdout.
  induction rs as [|c rs IH]; intros acc seen stdout Hseen new.
  { subst new. simpl. destruct verbose; by rewrite !app_nil_r. }
  destruct (city2_step_output_retained verbose city1 c acc seen stdout Hseen)
    as (new1&seen'&Hseen'&Hout&Hstep&Hnew).
  subst new. rewrite Hnew. cbn [foldl]. rewrite Hout, Hstep.
  destruct (IH (acc ++ new1) seen'
              (stdout ++ if verbose
                         then (λ n, name city1 +:+ " intersects " +:+ n)
                                <$> new1
                         else []) Hseen') as [-> ->].
  rewrite <-!app_assoc. split; [|done]. f_equal. f_equal.
  destruct verbose; [by rewrite fmap_app|done].
Qed.

Lemma city2_loop_neighbors_of records city1 :
  foldl (city2_step intersects city1) [] records
  = neighbors_of intersects records city1.
Proof.
  by destruct (city2_loop_output_retained false city1 records [] [] [])
    as [_ ->].
Qed.

(** The outer loop. *)
Lemma city1_loop_output_retained verbose records rs d seen stdout :
  (∀ k, k ∈ seen ↔ k ∈ d.*1) →
  let items := (λ city1, (name city1, neighbors_of intersects records city1))
                 <$> retained_from seen rs in
  foldl (city1_step_output intersects verbose records) (d, stdout) rs
  = (d ++ items,
     stdout ++ if verbose then concat (lines_of <$> items) else [])
  ∧ foldl (city1_step intersects records) d rs = d ++ items.
Proof.
  revert d seen stdout.
  induction rs as [|c rs IH]; intros d seen stdout Hseen items.
  { subst items. simpl. destruct verbose; by rewrite !app_nil_r. }
  subst items.
  assert (dict_contains d (name c) = bool_decide (name c ∈ seen)) as Hdict.
  { unfold dict_contains. apply bool_decide_ext. symmetry. apply Hseen. }
  destruct (city2_loop_output_retained verbose c records [] [] stdout)
    as [Hout Hnbrs]; [done|].
  fold (retained (filter (passes intersects c) records)) in Hout, Hnbrs.
  fold (neighbors_of intersects records c) in Hout, Hnbrs.
  simpl in Hout, Hnbrs.
  cbn [foldl retained_from].
  unfold city1_step_output at 2. unfold city1_step at 2.
  rewrite Hdict, Hout, Hnbrs.
  destruct (bool_decide (name c = "") || bool_decide (name c ∈ seen)).
  { by apply IH. }
  match goal with
  | |- foldl _ (?d', ?stdout') rs = _ ∧ _ =>
      destruct (IH d' (name c :: seen) stdout') as [IH1 IH2]
  end.
  { intros k. rewrite fmap_app, elem_of_cons, elem_of_app, Hseen. simpl.
    rewrite list_elem_of_singleton. tauto. }
  split; (etrans; [eassumption|]); rewrite fmap_cons, <-!app_assoc; [|done].
  f_equal. f_equal. destruct verbose; [|done]. by rewrite fmap_cons.
Qed.

Lemma intersections_of_retained records :
  intersections_of intersects records
  = (λ city1, (name city1, neighbors_of intersects records city1))
      <$> retained records.
Proof.
  unfold intersections_of, retained.
  by destruct (city1_loop_output_retained false records records [] [] [])
    as [_ ->].
Qed.
End GenerateIntersectionsClosedForm.

(** * Further properties of [generate_intersections] *)

Lemma near_sym a b : Sample2.near a b = Sample2.near b a.
Proof.
  unfold Sample2.near. repeat case_bool_decide; simpl; try done; lia.
Qed.

Lemma row_names_unique : names_unique Sample2.row.
Proof.
  intros c c' Hc Hc' _ Heq. unfold Sample2.row in *.
  set_unfold. naive_solver.
Qed.

Section GenerateIntersectionsMore.
Context {Geometry : Type} (intersects : Geometry → Geometry → bool).
Implicit Types (records : list (@record Geometry)).

Lemma first_record_elem records k c :
  first_record records k = Some c → c ∈ records ∧ name c = k.
Proof.
  unfold first_record. intros ([i c']&Hf&?)%fmap_Some. simplify_eq/=.
  apply list_find_Some in Hf as (?%list_elem_of_lookup_2&?&_). done.
Qed.

Lemma retained_from_named seen records :
  retained_from seen (filter (λ c, name c ≠ "") records)
  = retained_from seen records.
Proof.
  revert seen. induction records as [|c records IH]; intros seen; [done|].
  rewrite filter_cons. case_decide as Hc; cbn [retained_from].
  - by rewrite !IH.
  - by rewrite Hc, IH.
Qed.

Lemma retained_from_filter_named (P : @record Geometry → Prop)
    `{!∀ c, Decision (P c)} seen records :
  retained_from seen (filter P (filter (λ c, name c ≠ "") records))
  = retained_from seen (filter P records).
Proof.
  revert seen. induction records as [|c records IH]; intros seen; [done|].
  rewrite !filter_cons. case_decide as Hc.
  - rewrite filter_cons. case_decide; cbn [retained_from]; by rewrite ?IH.
  - case_decide; cbn [retained_from]; by rewrite ?Hc, IH.
Qed.

(** X1: the returned mapping holds every key once. *)
Theorem generate_intersections_keys_NoDup records :
  NoDup (generate_intersections intersects records).*1.
Proof.
  rewrite generate_intersections_Permutation.
  apply (city1_loop_NoDup intersects records records).
Qed.

(** X2: the returned mapping in closed form.  Its items are, for each
    retained record in input order, the name of the record with the names of
    the retained records among those of another name that intersect it; the
    items are then sorted by non-increasing list length, stably. *)
Theorem generate_intersections_closed_form records :
  generate_intersections intersects records
  = sorted_reverse (λ item, length item.2)
      ((λ city1, (name city1, neighbors_of intersects records city1))
         <$> retained records).
Proof.
  by rewrite generate_intersections_items, intersections_of_retained.
Qed.

(** X3: when the geometry test is symmetric and no two records share a
    non-empty name, the returned mapping is symmetric: a region is in the
    list of each region that is in its own list. *)
Theorem generate_intersections_symmetric records k nbrs k' nbrs' :
  (∀ g g', intersects g g' = intersects g' g) →
  names_unique records →
  (k, nbrs) ∈ generate_intersections intersects records →
  (k', nbrs') ∈ generate_intersections intersects records →
  k' ∈ nbrs → k ∈ nbrs'.
Proof.
  intros Hsym Huniq Hk Hk' Hin.
  assert (k ≠ "") as Hkne.
  { apply (proj1 (generate_intersections_keys intersects records k)).
    by apply (list_elem_of_fmap_2 fst) in Hk. }
  apply generate_intersections_item in Hk as (city1&Hf1&_&_&Hin1).
  apply generate_intersections_item in Hk' as (city2&Hf2&_&_&Hin2).
  apply first_record_elem in Hf1 as [Hc1 <-].
  apply first_record_elem in Hf2 as [Hc2 <-].
  apply Hin1 in Hin as (c2&Hc2'&Hne&Hneq&Hname&Hi).
  assert (c2 = city2) as -> by (apply Huniq; congruence).
  apply Hin2. exists city1. split; [done|].
  split_and!; [done|congruence|done|by rewrite Hsym].
Qed.

(** X4: [verbose] does not change the returned mapping. *)
Theorem generate_intersections_output_result verbose records :
  (generate_intersections_output intersects verbose records).1
  = generate_intersections intersects records.
Proof.
  unfold generate_intersections_output, generate_intersections.
  destruct (city1_loop_output_retained intersects verbose records records
              [] [] []) as [Hout Hd]; [done|].
  unfold intersections_of.
  destruct (foldl (city1_step_output _ _ _) _ _) as [d stdout].
  simplify_eq/=. by rewrite Hd.
Qed.

(** X5: without [verbose] nothing is printed; with it, the lines are, for
    each retained record in input order and each name of its neighbour
    list in list order, the line [<name> intersects <neighbour>]. *)
Theorem generate_intersections_output_lines verbose records :
  (generate_intersections_output intersects verbose records).2
  = if verbose
    then concat (lines_of <$>
           ((λ city1, (name city1, neighbors_of intersects records city1))
              <$> retained records))
    else [].
Proof.
  unfold generate_intersections_output.
  destruct (city1_loop_output_retained intersects verbose records records
              [] [] []) as [Hout _]; [done|].
  destruct (foldl (city1_step_output _ _ _) _ _) as [d stdout].
  by simplify_eq/=.
Qed.

(** X6: records without a name have no effect: leaving them out of the
    input gives the same mapping. *)
Theorem generate_intersections_ignores_unnamed records :
  generate_intersections intersects (filter (λ c, name c ≠ "") records)
  = generate_intersections intersects records.
Proof.
  rewrite !generate_intersections_items, !intersections_of_retained.
  unfold retained, neighbors_of, retained. rewrite retained_from_named.
  f_equal. apply list_fmap_ext. intros _ city1 _.
  by rewrite retained_from_filter_named.
Qed.
End GenerateIntersectionsMore.

Lemma symmetric_witness : "L" ∈ ["L"; "R"].
Proof.
  apply (generate_intersections_symmetric Sample2.near Sample2.row
           "L" ["M"] "M" ["L"; "R"]).
  - apply near_sym.
  - apply row_names_unique.
  - vm_compute. right. left.
  - vm_compute. left.
  - left.
Defined.

(** * Further facts about the loop of [greedy_coloring] *)

Section GreedyColoringMoreFacts.
Context {Color : Type} `{!EqDecision Color} {RandomState : Type}.
Variable random_shuffle :
  RandomState → list Color → RandomState * list Color.
Implicit Types (cm : gmap string Color) (st : @state Color RandomState).
Implicit Types (ns earlier : list string) (colors : list Color).
Implicit Types (items pre post : list (string * list string)).

(** A region and a neighbour coloured before it. *)
Lemma city_loop_earlier_neighbor rs colors pre city ns post n st :
  NoDup (pre ++ (city, ns) :: post).*1 →
  city_loop random_shuffle (pre ++ (city, ns) :: post) (State rs colors ∅)
  = Return st →
  n ∈ ns → n ∈ pre.*1 →
  ∃ c c', colormap_of st !! city = Some c ∧ colormap_of st !! n = Some c'
          ∧ c ≠ c'.
Proof.
  intros Hnd Hloop Hn Hpre.
  rewrite fmap_app, fmap_cons in Hnd. simpl in Hnd.
  apply NoDup_app in Hnd as (_&Hdisj&[Hcity _]%NoDup_cons).
  rewrite city_loop_app in Hloop.
  destruct (city_loop random_shuffle pre _) as [st1|] eqn:Hloop1;
    cbn [bind] in Hloop; [|done].
  rewrite city_loop_cons in Hloop.
  destruct (city_step random_shuffle st1 _) as [st2|] eqn:Hstep;
    cbn [bind] in Hloop; [|done].
  assert (n ≠ city ∧ n ∉ post.*1) as [Hne Hpost].
  { specialize (Hdisj _ Hpre). by apply not_elem_of_cons in Hdisj. }
  assert (city ∉ pre.*1) as Hcity_pre.
  { intros Hin. apply (Hdisj _ Hin). by left. }
  destruct (city_loop_covers _ _ _ _ _ Hloop1 Hpre) as [c' Hn1].
  pose proof (city_loop_frame _ _ _ _ _ Hloop1 Hcity_pre) as Hc1.
  simpl in Hc1. rewrite lookup_empty in Hc1.
  apply city_step_Return in Hstep as (_&_&[c Hc2]&Hcm).
  destruct Hcm as [Heq|(c2&_&Hfree&Heq)]; rewrite Heq in Hc2; [congruence|].
  rewrite lookup_insert_eq in Hc2. simplify_eq.
  exists c, c'. rewrite !(city_loop_frame _ _ _ _ _ Hloop) by done.
  rewrite Heq, lookup_insert_eq, lookup_insert_ne by done.
  split_and!; [done..|]. intros ->. by apply (Hfree n).
Qed.

(** Two regions that list each other. *)
Lemma city_loop_mutual rs colors items st city1 ns1 city2 ns2 :
  NoDup items.*1 →
  city_loop random_shuffle items (State rs colors ∅) = Return st →
  (city1, ns1) ∈ items → (city2, ns2) ∈ items →
  city2 ∈ ns1 → city1 ∈ ns2 → city1 ≠ city2 →
  ∃ c1 c2, colormap_of st !! city1 = Some c1
           ∧ colormap_of st !! city2 = Some c2 ∧ c1 ≠ c2.
Proof.
  intros Hnd Hloop (l1&l2&->)%list_elem_of_split H2 Hn1 Hn2 Hne.
  apply elem_of_app in H2 as [H2|H2].
  - apply (list_elem_of_fmap_2 fst) in H2.
    by apply (city_loop_earlier_neighbor rs colors l1 city1 ns1 l2 city2 st).
  - apply elem_of_cons in H2 as [?|H2]; [congruence|].
    apply list_elem_of_split in H2 as (m1&m2&->).
    assert (l1 ++ (city1, ns1) :: m1 ++ (city2, ns2) :: m2
            = (l1 ++ (city1, ns1) :: m1) ++ (city2, ns2) :: m2) as Heq.
    { by rewrite <-app_assoc. }
    rewrite Heq in Hnd, Hloop.
    destruct (city_loop_earlier_neighbor rs colors _ city2 ns2 m2 city1 st
                Hnd Hloop Hn2) as (c2&c1&?&?&?).
    + rewrite fmap_app, fmap_cons. apply elem_of_app. right. by left.
    + exists c1, c2. auto.
Qed.

(** Only the neighbours that have a colour can block one. *)
Lemma blocked_colors_le cm ns colors earlier :
  NoDup colors →
  (∀ k, is_Some (cm !! k) → k ∈ earlier) →
  (∀ c, c ∈ colors → neighbor_loop cm c ns = true) →
  length colors ≤ length (filter (λ n, n ∈ earlier) ns).
Proof.
  intros Hnd Hdom Hall.
  etrans; [|apply (length_omap_le (λ n, cm !! n))].
  apply submseteq_length, NoDup_submseteq; [done|].
  intros c (n&Hn&Hc)%Hall%neighbor_loop_true.
  apply list_elem_of_omap. exists n. split; [|done].
  apply list_elem_of_filter. split; [|done]. apply Hdom. eauto.
Qed.

Lemma city_loop_succeeds_earlier items st earlier :
  (∀ rs colors, (random_shuffle rs colors).2 ≡ₚ colors) →
  NoDup (colors_of st) →
  (∀ k, is_Some (colormap_of st !! k) → k ∈ earlier) →
  (∀ pre city ns post,
     items = pre ++ (city, ns) :: post →
     length (filter (λ n, n ∈ earlier ++ pre.*1) ns)
     < length (colors_of st)) →
  ∃ st', city_loop random_shuffle items st = Return st'.
Proof.
  intros Hperm. revert st earlier.
  induction items as [|[city ns] items IH]; intros st earlier Hnd Hdom Hlen;
    [by eexists|].
  rewrite city_loop_cons.
  destruct (city_step_free random_shuffle st city ns) as [st1 Hstep].
  { intros Hall.
    apply (blocked_colors_le _ _ _ earlier) in Hall;
      [|by rewrite Hperm|done].
    specialize (Hlen [] city ns items eq_refl). simpl in Hlen.
    rewrite app_nil_r in Hlen. rewrite Hperm in Hall. lia. }
  rewrite Hstep. cbn [bind].
  apply city_step_Return in Hstep as (_&Hcol&_&Hcm).
  apply (IH st1 (earlier ++ [city])).
  - by rewrite Hcol, Hperm.
  - intros k Hk. apply elem_of_app.
    destruct Hcm as [Heq|(c&_&_&Heq)]; rewrite Heq in Hk; [auto|].
    apply lookup_insert_is_Some in Hk as [->|[_ ?]]; [|auto].
    right. by left.
  - intros pre city' ns' post ->.
    specialize (Hlen ((city, ns) :: pre) city' ns' post eq_refl).
    rewrite fmap_cons in Hlen. simpl in Hlen.
    by rewrite <-app_assoc, Hcol, Hperm.
Qed.
End GreedyColoringMoreFacts.

(** * Further properties of [greedy_coloring] *)

Lemma chain_earlier_bound pre city ns post :
  Sample2.chain = pre ++ (city, ns) :: post →
  length (filter (λ n, n ∈ pre.*1) ns) < length Sample.two_colors.
Proof.
  unfold Sample2.chain. intros Heq.
  destruct pre as [|? [|? [|? [|? ?]]]]; simplify_eq/=; vm_compute; lia.
Qed.

Section GreedyColoringMore.
Context {Color : Type} `{!EqDecision Color} {RandomState : Type}.
Variable random_shuffle :
  RandomState → list Color → RandomState * list Color.
Implicit Types (rs : RandomState) (colors : list Color).
Implicit Types (neighbors_map pre post : list (string * list string)).
Implicit Types (colormap : gmap string Color).

(** X7: in the mapping of a call that returns, two regions of the model
    that list each other have different colours. *)
Theorem greedy_coloring_mutual_neighbors rs neighbors_map colors colormap
    city1 neighbors1 city2 neighbors2 :
  NoDup neighbors_map.*1 →
  greedy_coloring random_shuffle rs neighbors_map colors = Return colormap →
  (city1, neighbors1) ∈ neighbors_map →
  (city2, neighbors2) ∈ neighbors_map →
  city2 ∈ neighbors1 → city1 ∈ neighbors2 → city1 ≠ city2 →
  ∃ color1 color2,
    colormap !! city1 = Some color1 ∧ colormap !! city2 = Some color2
    ∧ color1 ≠ color2.
Proof.
  intros Hnd (st&Hloop&<-)%greedy_coloring_Return.
  by apply (city_loop_mutual random_shuffle rs colors neighbors_map st).
Qed.

(** X8: whenever the call returns, the keys of the mapping are the keys of
    the model and every value is a colour of the palette. *)
Theorem greedy_coloring_Return_keys_values rs neighbors_map colors colormap :
  (∀ rs' colors', (random_shuffle rs' colors').2 ≡ₚ colors') →
  greedy_coloring random_shuffle rs neighbors_map colors = Return colormap →
  (∀ city, city ∈ neighbors_map.*1 ↔ is_Some (colormap !! city))
  ∧ (∀ city color, colormap !! city = Some color → color ∈ colors).
Proof.
  intros Hperm (st&Hloop&<-)%greedy_coloring_Return. split.
  - intros city. split; [by eapply city_loop_covers|].
    intros Hsome. destruct (decide (city ∈ neighbors_map.*1)); [done|].
    rewrite (city_loop_frame _ _ _ _ _ Hloop) in Hsome by done.
    simpl in Hsome. rewrite lookup_empty in Hsome. by destruct Hsome.
  - intros city color Hc.
    destruct (city_loop_palette _ Hperm _ _ _ _ _ Hloop Hc) as [Hc'|?];
      [|done].
    simpl in Hc'. by rewrite lookup_empty in Hc'.
Qed.

(** X9: only the neighbours that come earlier in the model count.  With
    distinct colours, the call returns as soon as every region lists fewer
    earlier regions than the palette has colours. *)
Theorem greedy_coloring_succeeds_earlier rs neighbors_map colors :
  (∀ rs' colors', (random_shuffle rs' colors').2 ≡ₚ colors') →
  NoDup colors →
  (∀ pre city neighbors post,
     neighbors_map = pre ++ (city, neighbors) :: post →
     length (filter (λ n, n ∈ pre.*1) neighbors) < length colors) →
  ∃ colormap,
    greedy_coloring random_shuffle rs neighbors_map colors = Return colormap.
Proof.
  intros Hperm Hnd Hlen.
  destruct (city_loop_succeeds_earlier random_shuffle neighbors_map
              (State rs colors ∅) [] Hperm) as [st Hloop]; simpl; [done| |done|].
  - intros k Hk. rewrite lookup_empty in Hk. by destruct Hk.
  - exists (colormap_of st). apply greedy_coloring_Return. eauto.
Qed.

(** X10: an exception raised on a model is raised, with the same message,
    on every model that continues it. *)
Theorem greedy_coloring_Raise_extend rs pre post colors msg :
  greedy_coloring random_shuffle rs pre colors = Raise msg →
  greedy_coloring random_shuffle rs (pre ++ post) colors = Raise msg.
Proof.
  rewrite !greedy_coloring_Raise, city_loop_app. by intros ->.
Qed.

(** X11: no colour is ever revised.  When the call returns on a model, it
    returns on every beginning of the model, and with a mapping that is
    part of the one for the whole model. *)
Theorem greedy_coloring_Return_prefix rs pre post colors colormap :
  NoDup (pre ++ post).*1 →
  greedy_coloring random_shuffle rs (pre ++ post) colors = Return colormap →
  ∃ colormap',
    greedy_coloring random_shuffle rs pre colors = Return colormap'
    ∧ colormap' ⊆ colormap.
Proof.
  intros Hnd (st&Hloop&<-)%greedy_coloring_Return.
  rewrite city_loop_app in Hloop.
  destruct (city_loop random_shuffle pre _) as [st1|] eqn:Hloop1;
    cbn [bind] in Hloop; [|done].
  exists (colormap_of st1). split.
  { apply greedy_coloring_Return. eauto. }
  apply map_subseteq_spec. intros k c Hk.
  rewrite (city_loop_frame _ _ _ _ _ Hloop); [done|].
  rewrite fmap_app in Hnd. apply NoDup_app in Hnd as (_&Hdisj&_).
  apply Hdisj. destruct (decide (k ∈ pre.*1)); [done|].
  rewrite (city_loop_frame _ _ _ _ _ Hloop1) in Hk by done.
  simpl in Hk. by rewrite lookup_empty in Hk.
Qed.
End GreedyColoringMore.

(** X12: the two functions together.  When no two records share a
    non-empty name and the colouring of the mapping built from the records
    returns, two records with different non-empty names whose geometries
    intersect, each tested against the other, have different colours. *)
Theorem coloring_separates_intersecting
    {Geometry Color RandomState : Type} `{!EqDecision Color}
    (intersects : Geometry → Geometry → bool)
    (random_shuffle : RandomState → list Color → RandomState * list Color)
    (records : list (@record Geometry)) (rs : RandomState)
    (colors : list Color) (colormap : gmap string Color)
    (city1 city2 : @record Geometry) :
  names_unique records →
  greedy_coloring random_shuffle rs
    (generate_intersections intersects records) colors = Return colormap →
  city1 ∈ records → city2 ∈ records →
  name city1 ≠ "" → name city2 ≠ "" → name city1 ≠ name city2 →
  intersects (geometry city1) (geometry city2) = true →
  intersects (geometry city2) (geometry city1) = true →
  ∃ color1 color2,
    colormap !! name city1 = Some color1
    ∧ colormap !! name city2 = Some color2
    ∧ color1 ≠ color2.
Proof.
  intros Huniq (st&Hloop&<-)%greedy_coloring_Return
    Hc1 Hc2 Hn1 Hn2 Hne Hi12 Hi21.
  assert (∀ c c', c ∈ records → c' ∈ records → name c ≠ "" →
            name c ≠ name c' → name c' ≠ "" →
            intersects (geometry c) (geometry c') = true →
            ∃ nbrs, (name c, nbrs)
                      ∈ generate_intersections intersects records
                    ∧ name c' ∈ nbrs) as Hitem.
  { intros c c' Hc Hc' Hn Hnn Hn' Hi.
    assert (name c ∈ (generate_intersections intersects records).*1)
      as ([k nbrs]&Hk&Hin)%list_elem_of_fmap.
    { apply generate_intersections_keys. eauto. }
    simpl in Hk. subst k. exists nbrs. split; [done|].
    apply generate_intersections_item in Hin as (c0&Hf&_&_&Hin).
    apply first_record_elem in Hf as [Hc0 Hname].
    assert (c0 = c) as -> by (apply Huniq; congruence).
    apply Hin. exists c'. split; [done|].
    split_and!; [done|congruence|done..]. }
  destruct (Hitem city1 city2) as (nbrs1&?&?); [done..|].
  destruct (Hitem city2 city1) as (nbrs2&?&?);
    [done|done|done|congruence|done|done|].
  eapply (city_loop_mutual random_shuffle rs colors _ st
            (name city1) nbrs1 (name city2) nbrs2); try done.
  rewrite generate_intersections_Permutation.
  apply (city1_loop_NoDup intersects records records).
Qed.

Example generate_intersections_row :
  generate_intersections Sample2.near Sample2.row = Sample2.chain.
Proof. reflexivity. Qed.

Example generate_intersections_output_row :
  generate_intersections_output Sample2.near true Sample2.row
  = (Sample2.chain,
     ["L intersects M"; "M intersects L"; "M intersects R";
      "R intersects M"]).
Proof. reflexivity. Qed.

Example greedy_coloring_chain_two :
  greedy_coloring Sample.reverse_shuffle 0 Sample2.chain Sample.two_colors
  = Return (<["R" := "red"]> (<["L" := "red"]> (<["M" := "green"]> ∅))).
Proof. vm_compute. reflexivity. Qed.

Lemma mutual_neighbors_witness :
  ∃ color1 color2,
    Sample.triangle_colormap !! "X" = Some color1
    ∧ Sample.triangle_colormap !! "Z" = Some color2
    ∧ color1 ≠ color2.
Proof.
  apply (greedy_coloring_mutual_neighbors Sample.reverse_shuffle 0
           Sample.triangle Sample.three_colors Sample.triangle_colormap
           "X" ["Y"; "Z"] "Z" ["X"; "Y"]).
  - compute_done.
  - vm_compute. reflexivity.
  - left.
  - right. right. left.
  - right. left.
  - left.
  - discriminate.
Defined.

Lemma Return_keys_values_witness :
  (∀ city, city ∈ Sample.triangle.*1
           ↔ is_Some (Sample.triangle_colormap !! city))
  ∧ (∀ city color,
       Sample.triangle_colormap !! city = Some color →
       color ∈ Sample.three_colors).
Proof.
  apply (greedy_coloring_Return_keys_values Sample.reverse_shuffle 0
           Sample.triangle Sample.three_colors Sample.triangle_colormap).
  - apply reverse_shuffle_Permutation.
  - vm_compute. reflexivity.
Defined.

Lemma succeeds_earlier_witness :
  ∃ colormap,
    greedy_coloring Sample.reverse_shuffle 0 Sample2.chain Sample.two_colors
    = Return colormap.
Proof.
  apply (greedy_coloring_succeeds_earlier Sample.reverse_shuffle 0
           Sample2.chain Sample.two_colors).
  - apply reverse_shuffle_Permutation.
  - compute_done.
  - apply chain_earlier_bound.
Defined.

Lemma Raise_extend_witness :
  greedy_coloring Sample.reverse_shuffle 0 (Sample.triangle ++ [("W", [])])
    Sample.two_colors
  = Raise "Could not find color for Z".
Proof.
  apply (greedy_coloring_Raise_extend Sample.reverse_shuffle 0
           Sample.triangle [("W", [])] Sample.two_colors).
  vm_compute. reflexivity.
Defined.

Lemma Return_prefix_witness :
  ∃ colormap',
    greedy_coloring Sample.reverse_shuffle 0 [("X", ["Y"; "Z"])]
      Sample.three_colors = Return colormap'
    ∧ colormap' ⊆ Sample.triangle_colormap.
Proof.
  apply (greedy_coloring_Return_prefix Sample.reverse_shuffle 0
           [("X", ["Y"; "Z"])] [("Y", ["X"; "Z"]); ("Z", ["X"; "Y"])]
           Sample.three_colors Sample.triangle_colormap).
  - compute_done.
  - vm_compute. reflexivity.
Defined.

Lemma separates_intersecting_witness :
  ∃ color1 color2,
    Sample2.chain_colormap !! "L" = Some color1
    ∧ Sample2.chain_colormap !! "M" = Some color2
    ∧ color1 ≠ color2.
Proof.
  apply (coloring_separates_intersecting Sample2.near Sample.reverse_shuffle
           Sample2.row 0 Sample.three_colors Sample2.chain_colormap
           (Record_ "L" 0) (Record_ "M" 1)).
  - apply row_names_unique.
  - vm_compute. reflexivity.
  - left.
  - right. left.
  - discriminate.
  - discriminate.
  - discriminate.
  - reflexivity.
  - reflexivity.
Defined.

(** * Neighbours that are not earlier regions *)

Section EarlierOnly.
Context {Color : Type} `{!EqDecision Color} {RandomState : Type}.
Variable random_shuffle :
  RandomState → list Color → RandomState * list Color.
Implicit Types (cm : gmap string Color) (st : @state Color RandomState).
Implicit Types (ns earlier : list string) (colors : list Color).

Lemma neighbor_loop_filter cm c ns earlier :
  (∀ k, is_Some (cm !! k) → k ∈ earlier) →
  neighbor_loop cm c (filter (λ n, n ∈ earlier) ns) = neighbor_loop cm c ns.
Proof.
  intros Hdom. apply eq_true_iff_eq. rewrite !neighbor_loop_true.
  setoid_rewrite list_elem_of_filter. split; [naive_solver|].
  intros (n&?&Hn). exists n. split_and!; [|done..]. apply Hdom. eauto.
Qed.

Lemma color_loop_filter cm city ns colors earlier :
  (∀ k, is_Some (cm !! k) → k ∈ earlier) →
  color_loop cm city (filter (λ n, n ∈ earlier) ns) colors
  = color_loop cm city ns colors.
Proof.
  intros Hdom. induction colors as [|c colors IH]; simpl; [done|].
  by rewrite neighbor_loop_filter, IH.
Qed.

Lemma city_loop_earlier_only items st earlier :
  (∀ k, is_Some (colormap_of st !! k) → k ∈ earlier) →
  city_loop random_shuffle (earlier_only earlier items) st
  = city_loop random_shuffle items st.
Proof.
  revert st earlier.
  induction items as [|[city ns] items IH]; intros st earlier Hdom; [done|].
  cbn [earlier_only]. rewrite !city_loop_cons.
  assert (city_step random_shuffle st
            (city, filter (λ n, n ∈ earlier) ns)
          = city_step random_shuffle st (city, ns)) as ->.
  { unfold city_step. destruct (random_shuffle _ _) as [rs' colors'].
    by rewrite color_loop_filter. }
  destruct (city_step random_shuffle st (city, ns)) as [st1|] eqn:Hstep;
    cbn [bind]; [|done].
  apply IH. intros k Hk.
  apply city_step_Return in Hstep as (_&_&_&[Heq|(c&_&_&Heq)]);
    rewrite Heq in Hk; [right; auto|].
  apply lookup_insert_is_Some in Hk as [->|[_ ?]]; [by left|right; auto].
Qed.

(** X13: a name in a neighbour list that is not the key of an earlier
    region - a later region, the region itself, or no region of the model -
    has no effect: the call gives the same outcome on the model with every
    list cut down to the earlier regions. *)
Theorem greedy_coloring_earlier_only rs neighbors_map colors :
  greedy_coloring random_shuffle rs (earlier_only [] neighbors_map) colors
  = greedy_coloring random_shuffle rs neighbors_map colors.
Proof.
  unfold greedy_coloring. rewrite city_loop_earlier_only; [done|].
  simpl. intros k Hk. rewrite lookup_empty in Hk. by destruct Hk.
Qed.
End EarlierOnly.

Example earlier_only_triangle :
  earlier_only [] Sample.triangle
  = [("X", []); ("Y", ["X"]); ("Z", ["X"; "Y"])].
Proof. reflexivity. Qed.
